(** * goinput: filters, validators and the tree of validation errors

    A shallow embedding of [input.go] (package [goinput]) and the
    properties of its filter-and-validate protocol.

    Modelling choices, all read off the source:
    - [interface{}] values and [error] values are opaque: they are the type
      parameters [Val] and [Err] of the development;
    - a slice is a [list] (a nil slice and an empty slice are both [[]]:
      [len] and [append] do not tell them apart);
    - a Go [map[string]T] is a [gmap string T]; a [for ... range] over a map
      visits the entries in an unspecified order, so every loop over a map
      is first written over an explicit visiting order (a list of entries)
      and shown not to depend on it;
    - the [*ValidationError] pointers stored in [Children] are the trees they
      point to (finite, acyclic, never nil), as [NewValidationError] and the
      two [FilterAndValidate] methods build them;
    - a [panic] is the [Panic] constructor of [result]. *)

From stdpp Require Import gmap strings list fin_maps.

(** ** Results of code that may panic *)

Inductive result (A : Type) : Type :=
  | Ok (a : A)
  | Panic (msg : string).
Arguments Ok {A} a.
Arguments Panic {A} msg.

Definition is_Panic {A} (r : result A) : bool :=
  match r with Ok _ => false | Panic _ => true end.

Section goinput.

Context {Val Err : Type}.

(** ** [Filter] and [Validator] *)

(** [type Filter func(value interface{}) interface{}] *)
Definition Filter : Type := Val → Val.

(** [type Validator interface { Validate(value interface{}) error }];
    the [nil] error is [None]. *)
Record Validator : Type := MkValidator { Validate : Val → option Err }.

(** ** [ValidationError] *)

#[warnings="-register-all"]
Inductive ValidationError : Type :=
  MkValidationError {
    Errors : list Err;
    Children : gmap string ValidationError
  }.

(** [NewValidationError(errs, children)]: a nil argument ([None]) is replaced
    by a fresh empty container. *)
Definition NewValidationError
    (errs : option (list Err)) (children : option (gmap string ValidationError))
    : ValidationError :=
  let children := match children with None => ∅ | Some c => c end in
  let errs := match errs with None => [] | Some e => e end in
  {| Errors := errs; Children := children |}.

(** The body of the [for _, child := range errs.Children] loop of [Empty],
    as a function of the child visited and of what the rest of the loop
    yields: a non-empty child sets [empty = false] and breaks. *)
Definition Empty_visit (child_empty : bool) (rest : bool) : bool :=
  if negb child_empty then false else rest.

(** [func (errs ValidationError) Empty() (empty bool)] *)
Fixpoint ValidationError_Empty (errs : ValidationError) : bool :=
  let empty := true in
  match errs with
  | MkValidationError es ch =>
      if negb (length es =? 0)%nat then false
      else if negb (size ch =? 0)%nat then
        map_fold
          (λ (_ : string) (child : ValidationError) (rest : bool),
             Empty_visit (ValidationError_Empty child) rest)
          empty ch
      else empty
  end.

(** The same loop over an explicit visiting order of the children. *)
Fixpoint Empty_loop (children : list ValidationError) : bool :=
  match children with
  | [] => true
  | child :: rest => Empty_visit (ValidationError_Empty child) (Empty_loop rest)
  end.

(** [fmt.Sprintf("%q, %q", a, b)]: the rendering of each operand under the
    verb [%q] is left to [fmt]; the literal text between the two verbs is
    the comma and the space. *)
Variable fmt_q_Errors : list Err → string.
Variable fmt_q_Children : gmap string ValidationError → string.

Definition Sprintf_q_q (a : list Err) (b : gmap string ValidationError) : string :=
  (fmt_q_Errors a ++ ", " ++ fmt_q_Children b)%string.

(** [func (errs ValidationError) Error() (errStr string)] *)
Definition ValidationError_Error (errs : ValidationError) : string :=
  let errStr := "" in
  if negb (ValidationError_Empty errs)
  then Sprintf_q_q (Errors errs) (Children errs)
  else errStr.

(** ** [BasicInput] *)

Record BasicInput : Type := MkBasicInput {
  Value : Val;
  BreaksValidationChain : bool;
  Validators : list Validator;
  Filters : list Filter
}.

(** [input.Value = v], on the method's own copy of the receiver. *)
Definition set_Value (v : Val) (input : BasicInput) : BasicInput :=
  {| Value := v;
     BreaksValidationChain := BreaksValidationChain input;
     Validators := Validators input;
     Filters := Filters input |}.

(** [errors.Errors = append(errors.Errors, valErr)] *)
Definition append_Error (valErr : Err) (errors : ValidationError) : ValidationError :=
  {| Errors := Errors errors ++ [valErr]; Children := Children errors |}.

(** [errs.Children[fieldName] = valErrs] *)
Definition set_Child (fieldName : string) (valErrs errs : ValidationError)
    : ValidationError :=
  {| Errors := Errors errs; Children := <[fieldName := valErrs]> (Children errs) |}.

(** [for _, filter := range input.Filters { input.Value = filter(input.Value) }] *)
Fixpoint run_Filters (filters : list Filter) (input : BasicInput) : BasicInput :=
  match filters with
  | [] => input
  | filter :: rest => run_Filters rest (set_Value (filter (Value input)) input)
  end.

(** The validator loop: a failure is appended, and ends the loop when
    [BreaksValidationChain] is set. *)
Fixpoint run_Validators (validators : list Validator) (input : BasicInput)
    (errors : ValidationError) : ValidationError :=
  match validators with
  | [] => errors
  | validator :: rest =>
      match Validate validator (Value input) with
      | Some valErr =>
          let errors := append_Error valErr errors in
          if BreaksValidationChain input then errors
          else run_Validators rest input errors
      | None => run_Validators rest input errors
      end
  end.

(** ** The [Input] interface

    Two types of the package implement it. *)
Inductive Input : Type :=
  | Input_BasicInput (input : BasicInput)
  | Input_BasicInputGroup (ig : gmap string BasicInput).

(** [func (input BasicInput) FilterAndValidate() (Input, *ValidationError)] *)
Definition BasicInput_FilterAndValidate (input : BasicInput)
    : Input * ValidationError :=
  let errors := NewValidationError None None in
  let input := run_Filters (Filters input) input in
  let errors := run_Validators (Validators input) input errors in
  (Input_BasicInput input, errors).

(** ** [BasicInputGroup]: [map[string]BasicInput] *)

(** The type assertion [filteredInput.(BasicInput)]. *)
Definition assert_BasicInput (i : Input) : result BasicInput :=
  match i with
  | Input_BasicInput input => Ok input
  | Input_BasicInputGroup _ =>
      Panic "interface conversion: goinput.Input is goinput.BasicInputGroup, not goinput.BasicInput"
  end.

(** The loop of the group's [FilterAndValidate], over the entries in the
    order [order] in which [range ig] yields them. *)
Fixpoint BasicInputGroup_loop (order : list (string * BasicInput))
    (filteredGroup : gmap string BasicInput) (errs : ValidationError)
    : result (gmap string BasicInput * ValidationError) :=
  match order with
  | [] => Ok (filteredGroup, errs)
  | (fieldName, input) :: rest =>
      let '(filteredInput, valErrs) := BasicInput_FilterAndValidate input in
      let errs :=
        if negb (ValidationError_Empty valErrs)
        then set_Child fieldName valErrs errs else errs in
      match assert_BasicInput filteredInput with
      | Ok b => BasicInputGroup_loop rest (<[fieldName := b]> filteredGroup) errs
      | Panic msg => Panic msg
      end
  end.

Definition BasicInputGroup_FilterAndValidate_in (order : list (string * BasicInput))
    : result (Input * ValidationError) :=
  let errs := NewValidationError None None in
  let filteredGroup : gmap string BasicInput := ∅ in
  match BasicInputGroup_loop order filteredGroup errs with
  | Ok (filteredGroup, errs) => Ok (Input_BasicInputGroup filteredGroup, errs)
  | Panic msg => Panic msg
  end.

(** [func (ig BasicInputGroup) FilterAndValidate() (filtered Input, errs *ValidationError)] *)
Definition BasicInputGroup_FilterAndValidate (ig : gmap string BasicInput)
    : result (Input * ValidationError) :=
  BasicInputGroup_FilterAndValidate_in (map_to_list ig).

(** [func (ig BasicInputGroup) Value(fieldName string) interface{}] *)
Definition BasicInputGroup_Value (ig : gmap string BasicInput) (fieldName : string)
    : result Val :=
  match ig !! fieldName with
  | Some input => Ok (Value input)
  | None => Panic "Key does not exist"
  end.

(** ** The emptiness of a tree, as the specification words it

    A tree is empty when it has no problem of its own and every child
    stored in it is, recursively, empty. *)
Inductive Spec_Empty : ValidationError → Prop :=
  | Spec_Empty_intro (es : list Err) (ch : gmap string ValidationError) :
      es = [] →
      map_Forall (λ _ child, Spec_Empty child) ch →
      Spec_Empty {| Errors := es; Children := ch |}.

(** The number of nodes of a tree, the measure of the inductions on trees. *)
Fixpoint ValidationError_size (errs : ValidationError) : nat :=
  match errs with
  | MkValidationError _ ch =>
      S (map_fold
           (λ (_ : string) (child : ValidationError) (n : nat),
              ValidationError_size child + n)
           0 ch)
  end.

(** The failures that the validators of [input] report on [v], in the order
    of the validators. *)
Definition failures (validators : list Validator) (v : Val) : list Err :=
  omap (λ validator, Validate validator v) validators.

(** The value once every filter has run: the filters composed left to right. *)
Definition filtered_Value (input : BasicInput) : Val :=
  fold_left (λ v (filter : Filter), filter v) (Filters input) (Value input).

(** [input] with another sequence of validators, to compare two runs. *)
Definition with_Validators (validators : list Validator) (input : BasicInput)
    : BasicInput :=
  {| Value := Value input;
     BreaksValidationChain := BreaksValidationChain input;
     Validators := validators;
     Filters := Filters input |}.

(** What the group's loop does with one member: the member it stores in the
    filtered group, and the child it stores in the tree, if any. *)
Definition filtered_member (input : BasicInput) : BasicInput :=
  run_Filters (Filters input) input.

Definition reported_child (input : BasicInput) : option ValidationError :=
  let valErrs := (BasicInput_FilterAndValidate input).2 in
  if negb (ValidationError_Empty valErrs) then Some valErrs else None.

(** [input] with another flag, to compare the two ways of running the
    validators. *)
Definition with_BreaksValidationChain (breaks : bool) (input : BasicInput)
    : BasicInput :=
  {| Value := Value input;
     BreaksValidationChain := breaks;
     Validators := Validators input;
     Filters := Filters input |}.

(** [node] is the tree [errs] or a tree stored, at any depth, below it. *)
Inductive stored_in (node : ValidationError) : ValidationError → Prop :=
  | stored_in_here : stored_in node node
  | stored_in_child errs fieldName child :
      Children errs !! fieldName = Some child →
      stored_in node child →
      stored_in node errs.

(** * Properties *)

(** ** Trees *)

Lemma ValidationError_size_child es ch k child :
  ch !! k = Some child →
  ValidationError_size child < ValidationError_size {| Errors := es; Children := ch |}.
Proof.
  intros Hk. cbn [ValidationError_size].
  rewrite (map_fold_delete_L _ _ k child ch); [lia | intros; lia | done].
Qed.

(** Induction on trees: a property holds of every tree when it holds of a
    node as soon as it holds of the children stored in it. *)
Lemma ValidationError_tree_ind (P : ValidationError → Prop) :
  (∀ es ch, map_Forall (λ _ child, P child) ch → P {| Errors := es; Children := ch |}) →
  ∀ errs, P errs.
Proof.
  intros Hnode errs.
  remember (ValidationError_size errs) as n eqn:Hn.
  revert errs Hn. induction n as [n IH] using lt_wf_ind. intros [es ch] ->.
  apply Hnode. intros k child Hk.
  apply (IH (ValidationError_size child)); [by eapply ValidationError_size_child | done].
Qed.

(** The loop of [Empty] yields [true] exactly when every child it visits
    is empty. *)
Lemma Empty_loop_true children :
  Empty_loop children = true ↔
  Forall (λ child, ValidationError_Empty child = true) children.
Proof.
  induction children as [|child rest IH]; cbn [Empty_loop].
  - split; [constructor | done].
  - rewrite Forall_cons, <- IH. unfold Empty_visit.
    destruct (ValidationError_Empty child); cbn; intuition congruence.
Qed.

(** The order in which the children are visited does not matter. *)
Lemma Empty_loop_Permutation children1 children2 :
  children1 ≡ₚ children2 → Empty_loop children1 = Empty_loop children2.
Proof.
  intros Hperm. apply eq_true_iff_eq. rewrite !Empty_loop_true.
  by rewrite Hperm.
Qed.

Lemma Empty_fold_loop (order : list (string * ValidationError)) :
  foldr
    (uncurry (λ (_ : string) (child : ValidationError) (rest : bool),
                Empty_visit (ValidationError_Empty child) rest))
    true order
  = Empty_loop order.*2.
Proof. induction order as [|[k child] rest IH]; cbn; by f_equal. Qed.

(** [Empty], one call deep: the test on [Errors], then the loop over the
    children in the order of [map_to_list]. *)
Lemma ValidationError_Empty_unfold errs :
  ValidationError_Empty errs =
  match Errors errs with
  | [] => Empty_loop (map_to_list (Children errs)).*2
  | _ :: _ => false
  end.
Proof.
  destruct errs as [[|e es] ch]; [|done].
  cbn [ValidationError_Empty Errors Children length Nat.eqb negb].
  destruct (size ch =? 0)%nat eqn:Hsize; cbn [negb].
  - apply Nat.eqb_eq, map_size_empty_iff in Hsize as ->.
    by rewrite map_to_list_empty.
  - by rewrite map_fold_foldr, Empty_fold_loop.
Qed.

(** [Empty], in whatever order [range] yields the children. *)
Lemma ValidationError_Empty_any_order errs (order : list (string * ValidationError)) :
  order ≡ₚ map_to_list (Children errs) →
  ValidationError_Empty errs =
  match Errors errs with
  | [] => Empty_loop order.*2
  | _ :: _ => false
  end.
Proof.
  intros Hperm. rewrite ValidationError_Empty_unfold.
  destruct (Errors errs); [|done].
  apply Empty_loop_Permutation. by rewrite Hperm.
Qed.

Lemma ValidationError_Empty_true errs :
  ValidationError_Empty errs = true ↔
  Errors errs = [] ∧
  map_Forall (λ _ child, ValidationError_Empty child = true) (Children errs).
Proof.
  rewrite ValidationError_Empty_unfold.
  destruct (Errors errs) as [|e es]; [|by split; [|intros [? _]]].
  rewrite Empty_loop_true, Forall_fmap, map_Forall_to_list.
  split; [intros H; split; [done|] | intros [_ H]];
    (eapply Forall_impl; [exact H | by intros [??]]).
Qed.

Lemma ValidationError_Empty_Spec errs :
  ValidationError_Empty errs = true ↔ Spec_Empty errs.
Proof.
  induction errs as [es ch IH] using ValidationError_tree_ind.
  rewrite ValidationError_Empty_true. cbn [Errors Children]. split.
  - intros [-> Hch]. constructor; [done|].
    intros k child Hk. apply (IH k child Hk), (Hch k child Hk).
  - inversion 1 as [es' ch' Hes Hch]; subst. split; [done|].
    intros k child Hk. apply (IH k child Hk), (Hch k child Hk).
Qed.

(** ** A single input *)

Lemma run_Filters_fields filters input :
  Value (run_Filters filters input)
    = fold_left (λ v (filter : Filter), filter v) filters (Value input) ∧
  BreaksValidationChain (run_Filters filters input) = BreaksValidationChain input ∧
  Validators (run_Filters filters input) = Validators input ∧
  Filters (run_Filters filters input) = Filters input.
Proof.
  revert input. induction filters as [|filter rest IH]; intros input; [done|].
  cbn [run_Filters fold_left].
  destruct (IH (set_Value (filter (Value input)) input)) as (-> & -> & -> & ->).
  done.
Qed.

Lemma Value_filtered_member input :
  Value (filtered_member input) = filtered_Value input.
Proof. apply run_Filters_fields. Qed.

Lemma run_Validators_Children validators input errors :
  Children (run_Validators validators input errors) = Children errors.
Proof.
  revert errors. induction validators as [|validator rest IH]; intros errors; [done|].
  cbn [run_Validators]. destruct (Validate validator (Value input)); [|apply IH].
  destruct (BreaksValidationChain input); [done|]. by rewrite IH.
Qed.

(** The problems collected by the loop: every failure, or the first one
    only when the chain breaks. *)
Lemma run_Validators_Errors validators input errors :
  Errors (run_Validators validators input errors) =
  Errors errors ++
    (if BreaksValidationChain input
     then take 1 (failures validators (Value input))
     else failures validators (Value input)).
Proof.
  revert errors. induction validators as [|validator rest IH]; intros errors.
  - cbn. destruct (BreaksValidationChain input); by rewrite app_nil_r.
  - cbn [run_Validators]. unfold failures in *. cbn [omap list_omap].
    destruct (Validate validator (Value input)) as [valErr|]; [|apply IH].
    destruct (BreaksValidationChain input) eqn:Hbrk; [done|].
    rewrite IH. cbn. by rewrite <- app_assoc.
Qed.

Lemma ValidationError_eq errs1 errs2 :
  Errors errs1 = Errors errs2 → Children errs1 = Children errs2 → errs1 = errs2.
Proof. destruct errs1, errs2; cbn; congruence. Qed.

Lemma failures_app validators1 validators2 v :
  failures (validators1 ++ validators2) v
    = failures validators1 v ++ failures validators2 v.
Proof. apply omap_app. Qed.

(** The two results of [FilterAndValidate] on a single input. *)
Lemma BasicInput_FilterAndValidate_eq input :
  BasicInput_FilterAndValidate input =
  (Input_BasicInput (filtered_member input),
   {| Errors :=
        if BreaksValidationChain input
        then take 1 (failures (Validators input) (filtered_Value input))
        else failures (Validators input) (filtered_Value input);
      Children := ∅ |}).
Proof.
  unfold BasicInput_FilterAndValidate. f_equal.
  destruct (run_Filters_fields (Filters input) input) as (HV & HB & HVs & _).
  apply ValidationError_eq; cbn [Errors Children].
  - by rewrite run_Validators_Errors, HV, HB, HVs.
  - by rewrite run_Validators_Children.
Qed.

(** ** A group *)

Lemma reported_child_Some input child :
  reported_child input = Some child ↔
  (BasicInput_FilterAndValidate input).2 = child ∧ ValidationError_Empty child = false.
Proof.
  unfold reported_child.
  destruct (ValidationError_Empty _) eqn:Hempty; cbn [negb].
  - split; [done | intros [<- ?]; congruence].
  - split; [by intros [= <-] | by intros [<- _]].
Qed.

(** The loop, started from any filtered group and any tree, on entries with
    pairwise distinct names: every member is stored filtered, and the
    members that fail are stored as children. It never panics. *)
Lemma BasicInputGroup_loop_eq (order : list (string * BasicInput)) filteredGroup errs :
  NoDup order.*1 →
  BasicInputGroup_loop order filteredGroup errs =
  Ok ((filtered_member <$> (list_to_map order : gmap string BasicInput)) ∪ filteredGroup,
      {| Errors := Errors errs;
         Children := omap reported_child (list_to_map order : gmap string BasicInput)
                       ∪ Children errs |}).
Proof.
  revert filteredGroup errs.
  induction order as [|[fieldName input] rest IH]; intros filteredGroup errs Hnodup.
  - cbn. rewrite fmap_empty, omap_empty, !(left_id_L ∅ (∪)). by destruct errs.
  - rewrite fmap_cons in Hnodup. apply NoDup_cons in Hnodup as [Hfresh Hnodup].
    apply (not_elem_of_list_to_map (M:=gmap string)) in Hfresh.
    cbn [BasicInputGroup_loop list_to_map foldr uncurry fst snd] in *.
    assert (Hchild : reported_child input =
              if negb (ValidationError_Empty (BasicInput_FilterAndValidate input).2)
              then Some (BasicInput_FilterAndValidate input).2 else None) by done.
    destruct (BasicInput_FilterAndValidate input) as [filteredInput valErrs] eqn:Hmember.
    rewrite BasicInput_FilterAndValidate_eq in Hmember.
    injection Hmember as <- _. cbn [assert_BasicInput snd] in *.
    rewrite IH by done. f_equal. f_equal.
    + rewrite fmap_insert, <- insert_union_l, <- insert_union_r; [done|].
      by rewrite lookup_fmap, Hfresh.
    + destruct (ValidationError_Empty valErrs); cbn [negb] in *.
      * f_equal. rewrite omap_insert_None by done.
        rewrite delete_id; [done|]. by rewrite lookup_omap, Hfresh.
      * cbn [set_Child Errors Children]. f_equal.
        erewrite omap_insert_Some by done.
        rewrite <- insert_union_l, <- insert_union_r; [done|].
        by rewrite lookup_omap, Hfresh.
Qed.

(** The group's [FilterAndValidate], in whatever order [range] yields the
    members. *)
Lemma BasicInputGroup_FilterAndValidate_in_eq
    (ig : gmap string BasicInput) (order : list (string * BasicInput)) :
  order ≡ₚ map_to_list ig →
  BasicInputGroup_FilterAndValidate_in order =
  Ok (Input_BasicInputGroup (filtered_member <$> ig),
      {| Errors := []; Children := omap reported_child ig |}).
Proof.
  intros Hperm. unfold BasicInputGroup_FilterAndValidate_in.
  rewrite BasicInputGroup_loop_eq.
  - rewrite (list_to_map_proper (M:=gmap string) order (map_to_list ig)).
    + rewrite list_to_map_to_list. cbn. by rewrite !(right_id_L ∅ (∪)).
    + rewrite Hperm. apply NoDup_fst_map_to_list.
    + done.
  - rewrite Hperm. apply NoDup_fst_map_to_list.
Qed.

Lemma BasicInputGroup_FilterAndValidate_eq (ig : gmap string BasicInput) :
  BasicInputGroup_FilterAndValidate ig =
  Ok (Input_BasicInputGroup (filtered_member <$> ig),
      {| Errors := []; Children := omap reported_child ig |}).
Proof. by apply BasicInputGroup_FilterAndValidate_in_eq. Qed.

(** The child that a failing member contributes is the tree of a single
    input: problems, and no children. *)
Lemma reported_child_leaf input child :
  reported_child input = Some child →
  child = (BasicInput_FilterAndValidate input).2 ∧
  Children child = ∅ ∧ Errors child ≠ [].
Proof.
  intros [<- Hempty]%reported_child_Some.
  rewrite BasicInput_FilterAndValidate_eq in *. cbn [snd Children] in *.
  split_and!; [done..|]. intros Hnil.
  rewrite ValidationError_Empty_unfold, Hnil in Hempty. cbn in Hempty.
  by rewrite map_to_list_empty in Hempty.
Qed.

(** The first failure of a sequence of validators splits it in three. *)
Lemma failures_cons_inv validators v e es :
  failures validators v = e :: es →
  ∃ pre validator post,
    validators = pre ++ validator :: post ∧
    Forall (λ passing, Validate passing v = None) pre ∧
    Validate validator v = Some e ∧
    failures post v = es.
Proof.
  unfold failures. induction validators as [|validator rest IH]; [done|].
  cbn [omap list_omap]. destruct (Validate validator v) as [e'|] eqn:Hvalidate.
  - intros [= -> <-]. by exists [], validator, rest.
  - intros (pre & failing & post & -> & Hpre & Hfailing & Hpost)%IH.
    exists (validator :: pre), failing, post. split_and!; [done| |done..].
    by constructor.
Qed.

Lemma failures_passing validators v :
  Forall (λ passing, Validate passing v = None) validators →
  failures validators v = [].
Proof.
  unfold failures. induction 1 as [|validator rest Hpass _ IH]; [done|].
  cbn [omap list_omap]. by rewrite Hpass.
Qed.

Lemma failures_length validators v :
  length (failures validators v) =
  length (filter (λ validator, is_Some (Validate validator v)) validators).
Proof.
  unfold failures. induction validators as [|validator rest IH]; [done|].
  cbn [omap list_omap]. rewrite filter_cons.
  destruct (Validate validator v) as [e|] eqn:Hvalidate.
  - rewrite decide_True by eauto. cbn. by rewrite IH.
  - rewrite decide_False; [done|]. by intros [??].
Qed.

(** ** The tree of validation errors *)

(** C5. For every tree, also one built by hand that stores empty children,
    [Empty] returns [true] if and only if the tree has no problem of its own
    and every child stored in it is empty; read recursively, this is the
    emptiness of the specification. *)
Theorem ValidationError_Empty_correct (errs : ValidationError) :
  (ValidationError_Empty errs = true ↔
     Errors errs = [] ∧
     map_Forall (λ _ child, ValidationError_Empty child = true) (Children errs)) ∧
  (ValidationError_Empty errs = true ↔ Spec_Empty errs).
Proof.
  split; [apply ValidationError_Empty_true | apply ValidationError_Empty_Spec].
Qed.

Lemma Sprintf_q_q_nonempty a b : Sprintf_q_q a b ≠ ""%string.
Proof. unfold Sprintf_q_q. by destruct (fmt_q_Errors a). Qed.

(** C10. The message of [Error] is the empty string if and only if the tree
    is empty; for a tree that is not empty it is the formatted text, which
    is not the empty string. *)
Theorem ValidationError_Error_empty_iff (errs : ValidationError) :
  (ValidationError_Error errs = ""%string ↔ ValidationError_Empty errs = true) ∧
  (ValidationError_Empty errs = false →
     ValidationError_Error errs = Sprintf_q_q (Errors errs) (Children errs) ∧
     ValidationError_Error errs ≠ ""%string).
Proof.
  unfold ValidationError_Error.
  destruct (ValidationError_Empty errs); cbn [negb].
  - split; [done | discriminate].
  - pose proof (Sprintf_q_q_nonempty (Errors errs) (Children errs)).
    split; [split; [done | discriminate] | done].
Qed.

(** ** A single input *)

(** C2. When the chain breaks on the first failure and two or more
    validators fail, the tree holds exactly one problem, the one of the
    first failing validator; the validators that follow it play no part in
    the result. *)
Theorem BasicInput_breaks_on_first_failure (input : BasicInput) (e1 e2 : Err) (es : list Err) :
  BreaksValidationChain input = true →
  failures (Validators input) (filtered_Value input) = e1 :: e2 :: es →
  Errors (BasicInput_FilterAndValidate input).2 = [e1] ∧
  length (Errors (BasicInput_FilterAndValidate input).2) = 1 ∧
  ∃ pre validator post,
    Validators input = pre ++ validator :: post ∧
    Forall (λ passing, Validate passing (filtered_Value input) = None) pre ∧
    Validate validator (filtered_Value input) = Some e1 ∧
    ∀ post',
      (BasicInput_FilterAndValidate (with_Validators (pre ++ validator :: post') input)).2
      = (BasicInput_FilterAndValidate input).2.
Proof.
  intros Hbreak Hfailures.
  rewrite BasicInput_FilterAndValidate_eq, Hbreak, Hfailures. cbn [snd Errors take].
  split_and!; [done..|].
  destruct (failures_cons_inv _ _ _ _ Hfailures)
    as (pre & validator & post & Hsplit & Hpre & Hvalidator & _).
  exists pre, validator, post. split_and!; [done..|]. intros post'.
  rewrite BasicInput_FilterAndValidate_eq. cbn [snd]. f_equal.
  change (filtered_Value (with_Validators _ input)) with (filtered_Value input).
  cbn [with_Validators BreaksValidationChain Validators]. rewrite Hbreak.
  rewrite failures_app, (failures_passing pre) by done.
  unfold failures at 1. cbn [omap list_omap app]. by rewrite Hvalidator.
Qed.

(** C3. When the chain does not break, the tree holds one problem for each
    failing validator, N problems for N failing validators, in the order of
    the validators. *)
Theorem BasicInput_reports_every_failure (input : BasicInput) :
  BreaksValidationChain input = false →
  Errors (BasicInput_FilterAndValidate input).2
    = failures (Validators input) (filtered_Value input) ∧
  length (Errors (BasicInput_FilterAndValidate input).2)
    = length (filter (λ validator, is_Some (Validate validator (filtered_Value input)))
                (Validators input)).
Proof.
  intros Hbreak. rewrite BasicInput_FilterAndValidate_eq, Hbreak. cbn [snd Errors].
  split; [done | apply failures_length].
Qed.

(** C6. When every validator passes on the filtered value, the tree is empty
    and the input returned carries the value obtained by applying the
    filters one after the other, in the order of the sequence. *)
Theorem BasicInput_all_validators_pass (input : BasicInput) :
  Forall (λ validator, Validate validator (filtered_Value input) = None)
    (Validators input) →
  ∃ filtered,
    BasicInput_FilterAndValidate input
      = (Input_BasicInput filtered, NewValidationError None None) ∧
    ValidationError_Empty (BasicInput_FilterAndValidate input).2 = true ∧
    Value filtered
      = fold_left (λ v (filter : Filter), filter v) (Filters input) (Value input).
Proof.
  intros Hpass. exists (filtered_member input).
  rewrite BasicInput_FilterAndValidate_eq, (failures_passing _ _ Hpass).
  cbn [snd]. split_and!.
  - by destruct (BreaksValidationChain input).
  - by destruct (BreaksValidationChain input).
  - apply Value_filtered_member.
Qed.

(** C9. Whatever its filters, its validators and its flag, the tree that a
    single input returns has no children. *)
Theorem BasicInput_tree_is_leaf (input : BasicInput) :
  Children (BasicInput_FilterAndValidate input).2 = ∅.
Proof. by rewrite BasicInput_FilterAndValidate_eq. Qed.

(** ** A group *)

(** C1 (amended). The members of a group are single inputs, never groups:
    every child stored in the tree that a group returns is the tree of the
    member of that name, a leaf with problems and no children. *)
Theorem BasicInputGroup_children_are_leaves
    (ig : gmap string BasicInput) (filtered : Input) (errs : ValidationError)
    (fieldName : string) (child : ValidationError) :
  BasicInputGroup_FilterAndValidate ig = Ok (filtered, errs) →
  Children errs !! fieldName = Some child →
  (∃ input, ig !! fieldName = Some input ∧
            child = (BasicInput_FilterAndValidate input).2) ∧
  Children child = ∅ ∧
  Errors child ≠ [].
Proof.
  rewrite BasicInputGroup_FilterAndValidate_eq. intros [= _ <-].
  cbn [Children]. rewrite lookup_omap.
  destruct (ig !! fieldName) as [input|]; [|done]. cbn.
  intros (-> & Hchildren & Herrors)%reported_child_leaf. eauto.
Qed.

(** C4. The tree that a group returns stores a child under a field name if
    and only if the member of that name returned a tree that is not empty,
    and the child is that tree; the group's own problems are empty. *)
Theorem BasicInputGroup_children_iff (ig : gmap string BasicInput) :
  ∃ filtered errs,
    BasicInputGroup_FilterAndValidate ig = Ok (filtered, errs) ∧
    Errors errs = [] ∧
    (∀ fieldName,
       is_Some (Children errs !! fieldName) ↔
       ∃ input, ig !! fieldName = Some input ∧
                ValidationError_Empty (BasicInput_FilterAndValidate input).2 = false) ∧
    (∀ fieldName child,
       Children errs !! fieldName = Some child ↔
       ∃ input, ig !! fieldName = Some input ∧
                (BasicInput_FilterAndValidate input).2 = child ∧
                ValidationError_Empty child = false).
Proof.
  rewrite BasicInputGroup_FilterAndValidate_eq. eexists _, _.
  split; [done|]. cbn [Errors Children]. split; [done|].
  assert (Hlookup : ∀ fieldName child,
    omap reported_child ig !! fieldName = Some child ↔
    ∃ input, ig !! fieldName = Some input ∧
             (BasicInput_FilterAndValidate input).2 = child ∧
             ValidationError_Empty child = false).
  { intros fieldName child. rewrite lookup_omap.
    destruct (ig !! fieldName) as [input|]; cbn.
    - rewrite reported_child_Some. split; [by eauto|].
      by intros (? & [= <-] & ?).
    - split; [done | by intros (? & ? & _)]. }
  split; [|done]. intros fieldName. split.
  - intros [child (input & ? & <- & ?)%Hlookup]. eauto.
  - intros (input & ? & ?). eexists. apply Hlookup. eauto.
Qed.

(** C8. The group that [FilterAndValidate] returns has the field names of
    the group it was called on, no more and no fewer, each mapped to the
    input that its member returned. *)
Theorem BasicInputGroup_keeps_field_names (ig : gmap string BasicInput) :
  ∃ filteredGroup errs,
    BasicInputGroup_FilterAndValidate ig
      = Ok (Input_BasicInputGroup filteredGroup, errs) ∧
    dom filteredGroup = dom ig ∧
    (∀ fieldName, is_Some (filteredGroup !! fieldName) ↔ is_Some (ig !! fieldName)) ∧
    (∀ fieldName input,
       ig !! fieldName = Some input →
       ∃ filteredInput,
         (BasicInput_FilterAndValidate input).1 = Input_BasicInput filteredInput ∧
         filteredGroup !! fieldName = Some filteredInput).
Proof.
  rewrite BasicInputGroup_FilterAndValidate_eq. eexists _, _.
  split; [done|]. split_and!.
  - apply dom_fmap_L.
  - intros fieldName. by rewrite lookup_fmap, fmap_is_Some.
  - intros fieldName input Hinput. exists (filtered_member input).
    by rewrite BasicInput_FilterAndValidate_eq, lookup_fmap, Hinput.
Qed.

(** C7. [Value] returns the value of the member stored under the field name
    when there is one, and panics if and only if there is none. *)
Theorem BasicInputGroup_Value_correct (ig : gmap string BasicInput) (fieldName : string) :
  (∀ input, ig !! fieldName = Some input →
            BasicInputGroup_Value ig fieldName = Ok (Value input)) ∧
  (is_Panic (BasicInputGroup_Value ig fieldName) = true ↔ ig !! fieldName = None) ∧
  (is_Some (ig !! fieldName) → is_Panic (BasicInputGroup_Value ig fieldName) = false) ∧
  (ig !! fieldName = None →
   BasicInputGroup_Value ig fieldName = Panic "Key does not exist").
Proof.
  unfold BasicInputGroup_Value. destruct (ig !! fieldName) as [input|]; cbn.
  - split_and!; [by intros ? [= <-] | done | done | done].
  - split_and!; [done | done | by intros [??] | done].
Qed.

(** ** Further properties of the tree *)


(** X2. [Empty] does not depend on the order in which [range] yields the
    children: over any ordering of the entries of [Children], the test on
    [Errors] followed by the loop gives the result of [Empty]. *)
Theorem ValidationError_Empty_order_independent
    (errs : ValidationError) (order : list (string * ValidationError)) :
  order ≡ₚ map_to_list (Children errs) →
  ValidationError_Empty errs =
  (if negb (length (Errors errs) =? 0)%nat then false else Empty_loop order.*2).
Proof.
  intros Hperm. rewrite (ValidationError_Empty_any_order errs order Hperm).
  by destruct (Errors errs).
Qed.

Lemma Empty_loop_false children :
  Empty_loop children = false →
  ∃ child, child ∈ children ∧ ValidationError_Empty child = false.
Proof.
  induction children as [|child rest IH]; cbn [Empty_loop]; [done|].
  unfold Empty_visit. destruct (ValidationError_Empty child) eqn:Hchild; cbn [negb].
  - intros (child' & ? & ?)%IH. exists child'. split; [by right | done].
  - intros _. exists child. split; [by left | done].
Qed.

(** X3. A tree is not empty if and only if some tree stored in it, at any
    depth, or the tree itself, holds a problem. *)
Theorem ValidationError_Empty_false_iff (errs : ValidationError) :
  ValidationError_Empty errs = false ↔
  ∃ node, stored_in node errs ∧ Errors node ≠ [].
Proof.
  split.
  - induction errs as [es ch IH] using ValidationError_tree_ind.
    rewrite ValidationError_Empty_unfold. cbn [Errors Children].
    destruct es as [|e es].
    + intros (child & Hchild & Hempty)%Empty_loop_false.
      apply list_elem_of_fmap in Hchild as ([fieldName child'] & -> & Hentry).
      apply elem_of_map_to_list in Hentry. cbn [snd] in *.
      destruct (IH fieldName child' Hentry Hempty) as (node & Hnode & Hproblem).
      exists node. split; [|done].
      by apply (stored_in_child node _ fieldName child').
    + intros _. eexists. split; [apply stored_in_here | done].
  - intros (node & Hnode & Hproblem).
    induction Hnode as [|errs fieldName child Hchild _ IH].
    + rewrite ValidationError_Empty_unfold. by destruct (Errors node).
    + apply not_true_is_false. intros [_ Hchildren]%ValidationError_Empty_true.
      specialize (Hchildren fieldName child Hchild).
      cbn in Hchildren. congruence.
Qed.

(** ** Further properties of a single input *)

Lemma failures_nil_iff validators v :
  failures validators v = [] ↔
  Forall (λ validator, Validate validator v = None) validators.
Proof.
  split; [|apply failures_passing].
  unfold failures. induction validators as [|validator rest IH]; [constructor|].
  cbn [omap list_omap]. destruct (Validate validator v) eqn:Hvalidate; [done|].
  intros ?%IH. by constructor.
Qed.

(** X4. Whatever the flag, the tree that a single input returns is empty if
    and only if every validator passes on the filtered value. *)
Theorem BasicInput_tree_Empty_iff (input : BasicInput) :
  ValidationError_Empty (BasicInput_FilterAndValidate input).2 = true ↔
  Forall (λ validator, Validate validator (filtered_Value input) = None)
    (Validators input).
Proof.
  rewrite BasicInput_FilterAndValidate_eq, ValidationError_Empty_true.
  cbn [snd Errors Children]. rewrite <- failures_nil_iff.
  split.
  - intros [Hnil _]. destruct (BreaksValidationChain input); [|done].
    by destruct (failures _ _).
  - intros ->. split; [by destruct (BreaksValidationChain input) | done].
Qed.

(** X5. [FilterAndValidate] changes nothing of a single input but its
    value: the flag, the validators and the filters of the input returned
    are those of the receiver, and its value is the filtered value. *)
Theorem BasicInput_FilterAndValidate_frame (input : BasicInput) :
  ∃ filtered,
    (BasicInput_FilterAndValidate input).1 = Input_BasicInput filtered ∧
    Value filtered = filtered_Value input ∧
    BreaksValidationChain filtered = BreaksValidationChain input ∧
    Validators filtered = Validators input ∧
    Filters filtered = Filters input.
Proof.
  exists (filtered_member input). rewrite BasicInput_FilterAndValidate_eq.
  split; [done|]. apply run_Filters_fields.
Qed.

(** X6. Filtering is not remembered: calling [FilterAndValidate] on the
    input that [FilterAndValidate] returned runs the filters again, on the
    value already filtered. *)
Theorem BasicInput_FilterAndValidate_twice (input : BasicInput) :
  ∃ filtered filtered',
    (BasicInput_FilterAndValidate input).1 = Input_BasicInput filtered ∧
    (BasicInput_FilterAndValidate filtered).1 = Input_BasicInput filtered' ∧
    Value filtered'
      = fold_left (λ v (filter : Filter), filter v)
          (Filters input ++ Filters input) (Value input).
Proof.
  exists (filtered_member input), (filtered_member (filtered_member input)).
  rewrite !BasicInput_FilterAndValidate_eq. split_and!; [done..|].
  destruct (run_Filters_fields (Filters input) input) as (Hvalue & _ & _ & Hfilters).
  rewrite Value_filtered_member. unfold filtered_Value, filtered_member.
  by rewrite Hfilters, Hvalue, fold_left_app.
Qed.

(** X7. The flag only cuts the problems short: the problems reported when
    the chain breaks are the first, if any, of the problems reported when
    it does not, so there is at most one of them. *)
Theorem BasicInput_breaking_is_prefix (input : BasicInput) :
  Errors (BasicInput_FilterAndValidate (with_BreaksValidationChain true input)).2
    = take 1
        (Errors (BasicInput_FilterAndValidate (with_BreaksValidationChain false input)).2) ∧
  length (Errors (BasicInput_FilterAndValidate (with_BreaksValidationChain true input)).2) ≤ 1.
Proof.
  rewrite !BasicInput_FilterAndValidate_eq. cbn [snd Errors].
  change (filtered_Value (with_BreaksValidationChain _ input)) with (filtered_Value input).
  cbn [with_BreaksValidationChain BreaksValidationChain Validators].
  split; [done|]. rewrite length_take. lia.
Qed.

(** ** Further properties of a group *)


(** X9. The result of a group does not depend on the order in which
    [range] yields its members: over any ordering of the entries of the
    group, the loop returns what [FilterAndValidate] returns. *)
Theorem BasicInputGroup_FilterAndValidate_order_independent
    (ig : gmap string BasicInput) (order : list (string * BasicInput)) :
  order ≡ₚ map_to_list ig →
  BasicInputGroup_FilterAndValidate_in order = BasicInputGroup_FilterAndValidate ig.
Proof.
  intros Hperm.
  by rewrite (BasicInputGroup_FilterAndValidate_in_eq ig order Hperm),
    BasicInputGroup_FilterAndValidate_eq.
Qed.

(** X10. The tree that a group returns is empty if and only if the tree
    of every member is empty; in particular the tree of a group without
    members is empty. *)
Theorem BasicInputGroup_tree_Empty_iff (ig : gmap string BasicInput) :
  ∃ filtered errs,
    BasicInputGroup_FilterAndValidate ig = Ok (filtered, errs) ∧
    (ValidationError_Empty errs = true ↔
     ∀ fieldName input,
       ig !! fieldName = Some input →
       ValidationError_Empty (BasicInput_FilterAndValidate input).2 = true).
Proof.
  rewrite BasicInputGroup_FilterAndValidate_eq. eexists _, _. split; [done|].
  rewrite ValidationError_Empty_true. cbn [Errors Children]. split.
  - intros [_ Hchildren] fieldName input Hinput.
    destruct (ValidationError_Empty (BasicInput_FilterAndValidate input).2) eqn:Hempty;
      [done|].
    assert (Hchild : reported_child input = Some (BasicInput_FilterAndValidate input).2)
      by by apply reported_child_Some.
    assert (Hstored : omap reported_child ig !! fieldName
                      = Some (BasicInput_FilterAndValidate input).2)
      by (rewrite lookup_omap, Hinput; exact Hchild).
    pose proof (Hchildren fieldName _ Hstored) as Hcontra. cbv beta in Hcontra.
    congruence.
  - intros Hmembers. split; [done|]. intros fieldName child.
    rewrite lookup_omap. destruct (ig !! fieldName) as [input|] eqn:Hinput; [|done].
    cbn [mbind option_bind]. intros [<- Hempty]%reported_child_Some.
    specialize (Hmembers fieldName input Hinput). congruence.
Qed.

(** X11. Reading a field of the group that [FilterAndValidate] returned
    gives the filtered value of the member of that name, and panics exactly
    when the group it was called on has no member of that name. *)
Theorem BasicInputGroup_Value_after_FilterAndValidate
    (ig filteredGroup : gmap string BasicInput) (errs : ValidationError)
    (fieldName : string) :
  BasicInputGroup_FilterAndValidate ig = Ok (Input_BasicInputGroup filteredGroup, errs) →
  BasicInputGroup_Value filteredGroup fieldName =
  match ig !! fieldName with
  | Some input => Ok (filtered_Value input)
  | None => Panic "Key does not exist"
  end.
Proof.
  rewrite BasicInputGroup_FilterAndValidate_eq. intros [= <- _].
  unfold BasicInputGroup_Value. rewrite lookup_fmap.
  destruct (ig !! fieldName) as [input|]; [|done]. cbn.
  by rewrite Value_filtered_member.
Qed.

(** X12. The members of a group are handled independently: what two
    groups return for a field name is the same as soon as they hold the
    same member, or none, under that name, whatever their other members
    are and whether those fail or not. *)
Theorem BasicInputGroup_members_independent
    (ig1 ig2 filteredGroup1 filteredGroup2 : gmap string BasicInput)
    (errs1 errs2 : ValidationError) (fieldName : string) :
  ig1 !! fieldName = ig2 !! fieldName →
  BasicInputGroup_FilterAndValidate ig1 = Ok (Input_BasicInputGroup filteredGroup1, errs1) →
  BasicInputGroup_FilterAndValidate ig2 = Ok (Input_BasicInputGroup filteredGroup2, errs2) →
  filteredGroup1 !! fieldName = filteredGroup2 !! fieldName ∧
  Children errs1 !! fieldName = Children errs2 !! fieldName.
Proof.
  rewrite !BasicInputGroup_FilterAndValidate_eq.
  intros Hmember [= <- <-] [= <- <-]. cbn [Children].
  by rewrite !lookup_fmap, !lookup_omap, Hmember.
Qed.

End goinput.

(** * Concrete inputs

    Values and problem descriptions are strings. *)

Definition alwaysFail (msg : string) : @Validator string string :=
  MkValidator (λ _, Some msg).

Definition minLength (n : nat) (msg : string) : @Validator string string :=
  MkValidator (λ v, if (String.length v <? n)%nat then Some msg else None).

Definition exclaim : @Filter string := λ v, (v ++ "!")%string.
Definition twice : @Filter string := λ v, (v ++ v)%string.

(** Two failing validators on a chain that breaks, and on one that does not. *)
Definition field_breaking : @BasicInput string string :=
  MkBasicInput "abc" true [alwaysFail "a"; alwaysFail "b"] [].

Definition field_collecting : @BasicInput string string :=
  MkBasicInput "abc" false [alwaysFail "a"; minLength 2 "short"; alwaysFail "b"] [].

(** Passing validators behind two filters. *)
Definition field_valid : @BasicInput string string :=
  MkBasicInput "hello" false [minLength 3 "length < 3"] [exclaim; twice].

Definition field_invalid : @BasicInput string string :=
  MkBasicInput "7" false [minLength 2 "too young"] [].

(** A valid and an invalid member. *)
Definition group_name_age : gmap string (@BasicInput string string) :=
  <["name" := field_valid]> (<["age" := field_invalid]> ∅).

Definition leaf (problems : list string) : @ValidationError string :=
  {| Errors := problems; Children := ∅ |}.

(** A tree built by hand that stores an empty child. *)
Definition tree_with_placeholder : @ValidationError string :=
  {| Errors := []; Children := {["name" := leaf []]} |}.

Example field_breaking_problems :
  Errors (BasicInput_FilterAndValidate field_breaking).2 = ["a"%string].
Proof. reflexivity. Qed.

Example field_collecting_problems :
  Errors (BasicInput_FilterAndValidate field_collecting).2 = ["a"%string; "b"%string].
Proof. reflexivity. Qed.

Example field_valid_result :
  BasicInput_FilterAndValidate field_valid
  = (Input_BasicInput (set_Value "hello!hello!"%string field_valid), leaf []).
Proof. reflexivity. Qed.

Example group_name_age_result :
  BasicInputGroup_FilterAndValidate group_name_age
  = Ok (Input_BasicInputGroup
          (<["name" := set_Value "hello!hello!"%string field_valid]>
             (<["age" := field_invalid]> ∅)),
        {| Errors := []; Children := {["age" := leaf ["too young"%string]]} |}).
Proof. vm_compute. reflexivity. Qed.

Example tree_with_placeholder_Empty :
  ValidationError_Empty tree_with_placeholder = true.
Proof. vm_compute. reflexivity. Qed.

Example missing_field_panics :
  BasicInputGroup_Value group_name_age "email" = Panic "Key does not exist".
Proof. vm_compute. reflexivity. Qed.

Example present_field_value :
  BasicInputGroup_Value group_name_age "age" = Ok "7"%string.
Proof. vm_compute. reflexivity. Qed.

(** ** The theorems at concrete inputs *)

Lemma BasicInput_breaks_on_first_failure_witness :
  BreaksValidationChain field_breaking = true ∧
  failures (Validators field_breaking) (filtered_Value field_breaking)
    = ["a"%string; "b"%string] ∧
  Errors (BasicInput_FilterAndValidate field_breaking).2 = ["a"%string].
Proof.
  split; [reflexivity|]. split; [reflexivity|].
  apply (BasicInput_breaks_on_first_failure field_breaking "a"%string "b"%string []);
    reflexivity.
Defined.

Lemma BasicInput_reports_every_failure_witness :
  BreaksValidationChain field_collecting = false ∧
  Errors (BasicInput_FilterAndValidate field_collecting).2
    = failures (Validators field_collecting) (filtered_Value field_collecting).
Proof.
  split; [reflexivity|].
  apply (BasicInput_reports_every_failure field_collecting); reflexivity.
Defined.

Lemma BasicInput_all_validators_pass_witness :
  Forall (λ validator, Validate validator (filtered_Value field_valid) = None)
    (Validators field_valid) ∧
  ∃ filtered,
    BasicInput_FilterAndValidate field_valid
      = (Input_BasicInput filtered, NewValidationError None None) ∧
    ValidationError_Empty (BasicInput_FilterAndValidate field_valid).2 = true ∧
    Value filtered = "hello!hello!"%string.
Proof.
  assert (Hpass : Forall (λ validator, Validate validator (filtered_Value field_valid) = None)
                    (Validators field_valid)).
  { repeat constructor. }
  split; [exact Hpass|].
  exact (BasicInput_all_validators_pass field_valid Hpass).
Defined.

Lemma BasicInputGroup_children_are_leaves_witness :
  BasicInputGroup_FilterAndValidate group_name_age
    = Ok (Input_BasicInputGroup
            (<["name" := set_Value "hello!hello!"%string field_valid]>
               (<["age" := field_invalid]> ∅)),
          {| Errors := []; Children := {["age" := leaf ["too young"%string]]} |}) ∧
  Children (leaf ["too young"%string]) = ∅ ∧
  Errors (leaf ["too young"%string]) ≠ [].
Proof.
  assert (Hrun : BasicInputGroup_FilterAndValidate group_name_age
    = Ok (Input_BasicInputGroup
            (<["name" := set_Value "hello!hello!"%string field_valid]>
               (<["age" := field_invalid]> ∅)),
          {| Errors := []; Children := {["age" := leaf ["too young"%string]]} |})).
  { vm_compute. reflexivity. }
  split; [exact Hrun|].
  apply (BasicInputGroup_children_are_leaves group_name_age _ _ "age" _ Hrun).
  vm_compute. reflexivity.
Defined.

(** C1, as stated, fails: no group, whatever its members, returns a tree one
    of whose children has children of its own. The type of the members of a
    group, [BasicInput], leaves no room for a group among them. *)
Lemma nested_group_counterexample :
  ¬ ∃ (ig : gmap string (@BasicInput string string))
      (filtered : Input) (errs : ValidationError)
      (fieldName : string) (child : ValidationError),
      BasicInputGroup_FilterAndValidate ig = Ok (filtered, errs) ∧
      Children errs !! fieldName = Some child ∧
      Children child ≠ ∅.
Proof.
  intros (ig & filtered & errs & fieldName & child & Hrun & Hchild & Hnested).
  rewrite BasicInputGroup_FilterAndValidate_eq in Hrun. injection Hrun as _ <-.
  cbn [Children] in Hchild. rewrite lookup_omap in Hchild.
  destruct (ig !! fieldName) as [input|]; [|done]. cbn in Hchild.
  by apply reported_child_leaf in Hchild as (_ & ? & _).
Qed.

(** ** The further properties at concrete inputs *)

(** A tree with an empty child and a child that holds a problem. *)
Definition tree_two_children : @ValidationError string :=
  {| Errors := [];
     Children := <["name" := leaf []]> {["age" := leaf ["too young"%string]]} |}.

Definition filtered_name_age : gmap string (@BasicInput string string) :=
  <["name" := set_Value "hello!hello!"%string field_valid]>
    (<["age" := field_invalid]> ∅).

Definition errs_name_age : @ValidationError string :=
  {| Errors := []; Children := {["age" := leaf ["too young"%string]]} |}.

Lemma ValidationError_Empty_order_independent_witness :
  ValidationError_Empty tree_two_children
    = Empty_loop [leaf []; leaf ["too young"%string]] ∧
  ValidationError_Empty tree_two_children
    = Empty_loop [leaf ["too young"%string]; leaf []].
Proof.
  split.
  - apply (ValidationError_Empty_order_independent tree_two_children
             [("name"%string, leaf []); ("age"%string, leaf ["too young"%string])]).
    vm_compute. first [reflexivity | apply perm_swap].
  - apply (ValidationError_Empty_order_independent tree_two_children
             [("age"%string, leaf ["too young"%string]); ("name"%string, leaf [])]).
    vm_compute. first [reflexivity | apply perm_swap].
Defined.

Lemma BasicInputGroup_FilterAndValidate_order_independent_witness :
  BasicInputGroup_FilterAndValidate_in
    [("name"%string, field_valid); ("age"%string, field_invalid)]
    = BasicInputGroup_FilterAndValidate group_name_age ∧
  BasicInputGroup_FilterAndValidate_in
    [("age"%string, field_invalid); ("name"%string, field_valid)]
    = BasicInputGroup_FilterAndValidate group_name_age.
Proof.
  split.
  - apply (BasicInputGroup_FilterAndValidate_order_independent group_name_age).
    vm_compute. first [reflexivity | apply perm_swap].
  - apply (BasicInputGroup_FilterAndValidate_order_independent group_name_age).
    vm_compute. first [reflexivity | apply perm_swap].
Defined.

Lemma BasicInputGroup_Value_after_FilterAndValidate_witness :
  BasicInputGroup_FilterAndValidate group_name_age
    = Ok (Input_BasicInputGroup filtered_name_age, errs_name_age) ∧
  BasicInputGroup_Value filtered_name_age "name" = Ok "hello!hello!"%string ∧
  BasicInputGroup_Value filtered_name_age "email" = Panic "Key does not exist".
Proof.
  assert (Hrun : BasicInputGroup_FilterAndValidate group_name_age
                 = Ok (Input_BasicInputGroup filtered_name_age, errs_name_age)).
  { vm_compute. reflexivity. }
  split; [exact Hrun|]. split.
  - exact (BasicInputGroup_Value_after_FilterAndValidate
             group_name_age filtered_name_age errs_name_age "name" Hrun).
  - exact (BasicInputGroup_Value_after_FilterAndValidate
             group_name_age filtered_name_age errs_name_age "email" Hrun).
Defined.

(** A group whose two members fail. *)
Definition group_both_invalid : gmap string (@BasicInput string string) :=
  <["name" := field_invalid]> (<["age" := field_invalid]> ∅).

Definition errs_both_invalid : @ValidationError string :=
  {| Errors := [];
     Children := <["name" := leaf ["too young"%string]]>
                   {["age" := leaf ["too young"%string]]} |}.

Lemma BasicInputGroup_members_independent_witness :
  group_name_age !! "age" = group_both_invalid !! "age" ∧
  filtered_name_age !! "age" = group_both_invalid !! "age" ∧
  Children errs_name_age !! "age" = Children errs_both_invalid !! "age".
Proof.
  assert (Hmember : group_name_age !! "age" = group_both_invalid !! "age").
  { vm_compute. reflexivity. }
  split; [exact Hmember|].
  apply (BasicInputGroup_members_independent
           group_name_age group_both_invalid
           filtered_name_age group_both_invalid
           errs_name_age errs_both_invalid "age" Hmember).
  - vm_compute. reflexivity.
  - vm_compute. reflexivity.
Defined.
